(** * women_saloon: the saloon canister of [src/index.ts]

    A shallow embedding of the canister's seven exported functions
    ([getAllSaloons], [getSaloonById], [createSaloon], [createService],
    [deleteSaloon], [rateSaloon], [updateSaloonById]), the properties
    of them that the specification states, and further properties of
    their refusals, of what a call can change, and of calls in sequence.

    - TypeScript [string] is [string]; [nat64] is [N]; [number] and
      [float32] values are JavaScript numbers inside the functions, that
      is IEEE 754 binary64, here the kernel's primitive [float].
    - [saloonStorage] is the only mutable state.  Every function is a
      computation in the state monad [M] over it.
    - [ic.caller()], [ic.time()] and [uuidv4()] are answered by the
      platform; no function asks any of them twice, so one record [Env]
      holds the three answers of one call. *)

From Stdlib Require Import Floats.
From stdpp Require Import gmap strings list fin_maps.

#[local] Set Warnings "-inexact-float".

Local Open Scope string_scope.

(** ** Data model *)

Definition nat64 := N.
Definition float32 := float.
Definition number := float.

(** An azle [Principal] is used through [toString()] only, which is
    injective: a principal is identified with its text. *)
Record Principal := principal { toString : string }.

Inductive Result (T E : Type) :=
| Ok (t : T)
| Err (e : E).
Arguments Ok {T E} t.
Arguments Err {T E} e.

Module ServiceRendered.
Record t := mk {
  id : string;
  serviceName : string;
  serviceDescription : string;
  serviceAmount : number;
  createdAt : nat64
}.
End ServiceRendered.

Record ServiceRenderedPayload := {
  serviceName : string;
  serviceDescription : string;
  serviceAmount : number
}.

Record SaloonPayload := {
  saloonName : string;
  saloonLocation : string;
  attachmentURL : string
}.

Module Saloon.
Record t := mk {
  owner : Principal;
  id : string;
  saloonName : string;
  saloonLocation : string;
  attachmentURL : string;
  servicesRendered : list ServiceRendered.t;
  rating : float32;
  createdAt : nat64;
  updatedAt : option nat64
}.
End Saloon.

(** ** JavaScript operators the functions use *)

(** [!s] on a string: only the empty string is falsy. *)
Definition falsy (s : string) : bool :=
  match s with
  | EmptyString => true
  | String _ _ => false
  end.

(** [a !== b] on strings. *)
Definition strict_ne (a b : string) : bool := negb (String.eqb a b).

(** [a < b] and [a > b] on numbers; both are false on NaN. *)
Definition lt (a b : number) : bool := PrimFloat.ltb a b.
Definition gt (a b : number) : bool := PrimFloat.ltb b a.

(** A value of type [any] in [rateSaloon]: [saloonRating] is the rating
    (a number) when the saloon exists and a [Result.Err] object when it
    does not. *)
Inductive any :=
| Num (x : number)
| Obj (r : Result Saloon.t string).

(** [a + n]: addition on numbers; an object operand is turned into a
    string and the result is a string, which is not a number. *)
Definition plus (a : any) (n : number) : option number :=
  match a with
  | Num x => Some (PrimFloat.add x n)
  | Obj _ => None
  end.

(** [a / n]: a string that does not spell a number divides to NaN. *)
Definition divide (a : option number) (n : number) : number :=
  match a with
  | Some x => PrimFloat.div x n
  | None => PrimFloat.nan
  end.

(** ** The store

    Modelled from the spec: [StableBTreeMap] is azle's, not this
    repository's; section 4.1 gives its contract ([get], [insert]
    overwriting the key, [remove] returning the removed value, [values]
    in some deterministic order), which a finite map meets.  A value is
    read back as it was inserted: the size bounds [(44, 1024)] given to
    the constructor and the narrowing of [float32] fields by the Candid
    encoding are the library's and are not modelled. *)

Abbreviation Store := (gmap string Saloon.t).

Definition M (A : Type) : Type := Store -> A * Store.

#[export] Instance M_ret : MRet M := fun A (a : A) st => (a, st).

#[export] Instance M_bind : MBind M :=
  fun A B (k : A -> M B) (m : M A) st => let (a, st') := m st in k a st'.

Definition ret {A} (a : A) : M A := mret a.

Module saloonStorage.
Definition get (k : string) : M (option Saloon.t) :=
  fun st => (st !! k, st).
Definition insert (k : string) (v : Saloon.t) : M unit :=
  fun st => (tt, <[k := v]> st).
Definition remove (k : string) : M (option Saloon.t) :=
  fun st => (st !! k, delete k st).
Definition values : M (list Saloon.t) :=
  fun st => ((map_to_list st).*2, st).
End saloonStorage.

(** ** The exported functions *)

Record Env := {
  caller : Principal;
  time : nat64;
  uuidv4 : string
}.

Section Canister.

Variable ic : Env.

(** [values()] of the store does not throw, so the [catch] branch of
    [getAllSaloons] has no counterpart. *)
Definition getAllSaloons : M (Result (list Saloon.t) string) :=
  saloons ← saloonStorage.values;
  if Nat.eqb (length saloons) 0
  then ret (Err "No saloons found.")
  else ret (Ok saloons).

Definition getSaloonById (id : string) : M (Result Saloon.t string) :=
  if falsy id
  then ret (Err "Invalid id")
  else
    r ← saloonStorage.get id;
    match r with
    | Some saloon => ret (Ok saloon)
    | None => ret (Err ("Saloon with id=" +:+ id +:+ " does not exist"))
    end.

Definition createSaloon (payload : SaloonPayload)
  : M (Result Saloon.t string) :=
  if falsy (saloonName payload)
     || falsy (saloonLocation payload)
     || falsy (attachmentURL payload)
  then ret (Err "Missing required fields in payload")
  else
    let saloon :=
      {| Saloon.id := uuidv4 ic;
         Saloon.owner := caller ic;
         Saloon.rating := 1.0%float;
         Saloon.servicesRendered := [];
         Saloon.createdAt := time ic;
         Saloon.updatedAt := None;
         Saloon.saloonName := saloonName payload;
         Saloon.saloonLocation := saloonLocation payload;
         Saloon.attachmentURL := attachmentURL payload |} in
    saloonStorage.insert (Saloon.id saloon) saloon ;;
    ret (Ok saloon).

Definition createService (id : string) (payload : ServiceRenderedPayload)
  : M (Result Saloon.t string) :=
  let serviceRendered :=
    {| ServiceRendered.id := uuidv4 ic;
       ServiceRendered.createdAt := time ic;
       ServiceRendered.serviceName := serviceName payload;
       ServiceRendered.serviceDescription := serviceDescription payload;
       ServiceRendered.serviceAmount := serviceAmount payload |} in
  r ← saloonStorage.get id;
  match r with
  | Some saloon =>
      if strict_ne (toString (Saloon.owner saloon)) (toString (caller ic))
      then ret (Err "You are not the owner of this saloon")
      else
        let servicesRendered :=
          (Saloon.servicesRendered saloon ++ [serviceRendered])%list in
        let Saloon' :=
          {| Saloon.owner := Saloon.owner saloon;
             Saloon.id := Saloon.id saloon;
             Saloon.saloonName := Saloon.saloonName saloon;
             Saloon.saloonLocation := Saloon.saloonLocation saloon;
             Saloon.attachmentURL := Saloon.attachmentURL saloon;
             Saloon.rating := Saloon.rating saloon;
             Saloon.createdAt := Saloon.createdAt saloon;
             Saloon.updatedAt := Saloon.updatedAt saloon;
             Saloon.servicesRendered := servicesRendered |} in
        saloonStorage.insert (Saloon.id saloon) Saloon' ;;
        ret (Ok Saloon')
  | None => ret (Err "Unable to carry out the following function")
  end.

Definition deleteSaloon (id : string) : M (Result Saloon.t string) :=
  r ← saloonStorage.remove id;
  match r with
  | Some saloon =>
      if strict_ne (toString (Saloon.owner saloon)) (toString (caller ic))
      then ret (Err "You are not the owner of this saloon")
      else
        saloonStorage.remove id ;;
        ret (Ok saloon)
  | None =>
      ret (Err ("couldn't delete saloon with this id=" +:+ id
                +:+ ". saloon not found."))
  end.

Definition rateSaloon (id : string) (rate : number)
  : M (Result Saloon.t string) :=
  if lt rate 0%float || gt rate 5%float
  then ret (Err ("Error rating saloon with the id=" +:+ id
                 +:+ ". Invalid rating value. Value should not be more than 5 or less than 0"))
  else
    r ← saloonStorage.get id;
    let saloonRating : any :=
      match r with
      | Some saloon => Num (Saloon.rating saloon)
      | None => Obj (Err ("Error updating saloon with the id=" +:+ id
                          +:+ ". Saloon not found"))
      end in
    let rating := divide (plus saloonRating rate) 5%float in
    r' ← saloonStorage.get id;
    match r' with
    | Some saloonData =>
        let saloon :=
          {| Saloon.owner := Saloon.owner saloonData;
             Saloon.id := Saloon.id saloonData;
             Saloon.saloonName := Saloon.saloonName saloonData;
             Saloon.saloonLocation := Saloon.saloonLocation saloonData;
             Saloon.attachmentURL := Saloon.attachmentURL saloonData;
             Saloon.servicesRendered := Saloon.servicesRendered saloonData;
             Saloon.createdAt := Saloon.createdAt saloonData;
             Saloon.rating := rating;
             Saloon.updatedAt := Some (time ic) |} in
        saloonStorage.insert (Saloon.id saloon) saloon ;;
        ret (Ok saloon)
    | None => ret (Err ("Error rating saloon with the id=" +:+ id
                        +:+ ". Saloon not found"))
    end.

Definition updateSaloonById (id : string) (payload : SaloonPayload)
  : M (Result Saloon.t string) :=
  r ← saloonStorage.get id;
  match r with
  | Some saloon =>
      let updatedSaloon :=
        {| Saloon.owner := Saloon.owner saloon;
           Saloon.id := Saloon.id saloon;
           Saloon.servicesRendered := Saloon.servicesRendered saloon;
           Saloon.rating := Saloon.rating saloon;
           Saloon.createdAt := Saloon.createdAt saloon;
           Saloon.saloonName := saloonName payload;
           Saloon.saloonLocation := saloonLocation payload;
           Saloon.attachmentURL := attachmentURL payload;
           Saloon.updatedAt := Some (time ic) |} in
      saloonStorage.insert (Saloon.id saloon) updatedSaloon ;;
      ret (Ok updatedSaloon)
  | None => ret (Err ("couldn't update the saloon with this id=" +:+ id
                      +:+ ". saloon not found"))
  end.

End Canister.

(** ** Calls, reachable stores and the store-key invariant *)

(** One call of an exported function, with its arguments. *)
Inductive Call :=
| GetAllSaloons
| GetSaloonById (id : string)
| CreateSaloon (payload : SaloonPayload)
| CreateService (id : string) (payload : ServiceRenderedPayload)
| DeleteSaloon (id : string)
| RateSaloon (id : string) (rate : number)
| UpdateSaloonById (id : string) (payload : SaloonPayload).

(** The store a call leaves behind. *)
Definition exec (ic : Env) (c : Call) (st : Store) : Store :=
  match c with
  | GetAllSaloons => (getAllSaloons st).2
  | GetSaloonById id => (getSaloonById id st).2
  | CreateSaloon payload => (createSaloon ic payload st).2
  | CreateService id payload => (createService ic id payload st).2
  | DeleteSaloon id => (deleteSaloon ic id st).2
  | RateSaloon id rate => (rateSaloon ic id rate st).2
  | UpdateSaloonById id payload => (updateSaloonById ic id payload st).2
  end.

(** The stores that calls can build, starting from the empty one. *)
Inductive reachable : Store -> Prop :=
| reachable_empty : reachable ∅
| reachable_call ic c st : reachable st -> reachable (exec ic c st).

(** Every record is stored under its own [id]. *)
Definition keyed (st : Store) : Prop :=
  forall k s, st !! k = Some s -> Saloon.id s = k.

(** ** Vocabulary of the statements *)

(** [{...s, rating: r}], [{...s, updatedAt: u}] and
    [{...s, servicesRendered: l}]: one field replaced, the others kept. *)
Definition with_rating (r : float32) (s : Saloon.t) : Saloon.t :=
  Saloon.mk (Saloon.owner s) (Saloon.id s) (Saloon.saloonName s)
    (Saloon.saloonLocation s) (Saloon.attachmentURL s)
    (Saloon.servicesRendered s) r (Saloon.createdAt s) (Saloon.updatedAt s).

Definition with_updatedAt (u : option nat64) (s : Saloon.t) : Saloon.t :=
  Saloon.mk (Saloon.owner s) (Saloon.id s) (Saloon.saloonName s)
    (Saloon.saloonLocation s) (Saloon.attachmentURL s)
    (Saloon.servicesRendered s) (Saloon.rating s) (Saloon.createdAt s) u.

Definition with_servicesRendered (l : list ServiceRendered.t) (s : Saloon.t)
  : Saloon.t :=
  Saloon.mk (Saloon.owner s) (Saloon.id s) (Saloon.saloonName s)
    (Saloon.saloonLocation s) (Saloon.attachmentURL s)
    l (Saloon.rating s) (Saloon.createdAt s) (Saloon.updatedAt s).

(** The three text fields replaced by the payload's. *)
Definition with_payload (p : SaloonPayload) (s : Saloon.t) : Saloon.t :=
  Saloon.mk (Saloon.owner s) (Saloon.id s) (saloonName p)
    (saloonLocation p) (attachmentURL p)
    (Saloon.servicesRendered s) (Saloon.rating s) (Saloon.createdAt s)
    (Saloon.updatedAt s).

(** The service entry that a call with answers [ic] makes of a payload. *)
Definition service_of (ic : Env) (p : ServiceRenderedPayload)
  : ServiceRendered.t :=
  ServiceRendered.mk (uuidv4 ic) (serviceName p) (serviceDescription p)
    (serviceAmount p) (time ic).

(** The record that a call with answers [ic] makes of a payload. *)
Definition saloon_of (ic : Env) (p : SaloonPayload) : Saloon.t :=
  Saloon.mk (caller ic) (uuidv4 ic) (saloonName p) (saloonLocation p)
    (attachmentURL p) [] 1.0%float (time ic) None.

(** ** Concrete data for the examples *)

Definition alice : Principal := principal "aaaaa-aa".
Definition bob : Principal := principal "2vxsx-fae".

Definition env0 : Env :=
  {| caller := alice; time := 1000%N;
     uuidv4 := "9b1deb4d-3b7d-4bad-9bdd-2b0d7b3dcb6d" |}.
Definition env1 : Env :=
  {| caller := alice; time := 2000%N;
     uuidv4 := "1b9d6bcd-bbfd-4b2d-9b5d-ab8dfbbd4bed" |}.
Definition env2 : Env :=
  {| caller := bob; time := 3000%N;
     uuidv4 := "6ec0bd7f-11c0-43da-975e-2a8ad9ebae0b" |}.

Definition payload0 : SaloonPayload :=
  {| saloonName := "Glow"; saloonLocation := "Lagos";
     attachmentURL := "https://example.org/glow.png" |}.
Definition payload1 : SaloonPayload :=
  {| saloonName := "Shine"; saloonLocation := "Abuja";
     attachmentURL := "https://example.org/shine.png" |}.
Definition service0 : ServiceRenderedPayload :=
  {| serviceName := "Braids"; serviceDescription := "Box braids";
     serviceAmount := 25%float |}.
Definition service1 : ServiceRenderedPayload :=
  {| serviceName := "Nails"; serviceDescription := "Manicure";
     serviceAmount := 12.5%float |}.

Definition id0 : string := uuidv4 env0.
Definition saloon0 : Saloon.t := saloon_of env0 payload0.
(** The store after [alice] created [saloon0]. *)
Definition store0 : Store := {[ id0 := saloon0 ]}.

(** A store that three calls build: [alice] creates a saloon, adds a
    service to it, and [bob] rates it. *)
Definition store3 : Store :=
  exec env2 (RateSaloon id0 4%float)
    (exec env1 (CreateService id0 service0)
       (exec env0 (CreateSaloon payload0) ∅)).

(** The key that a call may write or delete: the id it is given, the
    generated id for [createSaloon], none for the two queries. *)
Definition touched (ic : Env) (c : Call) : option string :=
  match c with
  | GetAllSaloons | GetSaloonById _ => None
  | CreateSaloon _ => Some (uuidv4 ic)
  | CreateService id _ | DeleteSaloon id | RateSaloon id _
  | UpdateSaloonById id _ => Some id
  end.

(** What [createSaloon] grants of a record: the initial rating and three
    text fields that are not empty. *)
Definition as_created (s : Saloon.t) : Prop :=
  Saloon.rating s = 1.0%float
  /\ Saloon.saloonName s ≠ ""
  /\ Saloon.saloonLocation s ≠ ""
  /\ Saloon.attachmentURL s ≠ "".

(** ** Runs with a fresh id generator *)

(** The stores that calls build from the empty one when [uuidv4()] never
    answers an id it has answered before; the set holds the ids answered
    so far (an answer counts as used even when the call does not ask). *)
Inductive fresh_reachable : gset string -> Store -> Prop :=
| fresh_reachable_empty : fresh_reachable ∅ ∅
| fresh_reachable_call used ic c st :
    fresh_reachable used st ->
    uuidv4 ic ∉ used ->
    fresh_reachable ({[uuidv4 ic]} ∪ used) (exec ic c st).

(** The ids of the services of a saloon, in order. *)
Definition service_ids (s : Saloon.t) : list string :=
  ServiceRendered.id <$> Saloon.servicesRendered s.

(** Every key of the store and every service id in it is in [used]. *)
Definition ids_within (used : gset string) (st : Store) : Prop :=
  forall k s, st !! k = Some s ->
    k ∈ used /\ forall i, i ∈ service_ids s -> i ∈ used.

(** * Properties *)

(** Unfolds the state monad down to lookups, inserts and deletes. *)
Ltac run_store :=
  unfold mbind, M_bind, ret, mret, M_ret, saloonStorage.get,
    saloonStorage.insert, saloonStorage.remove, saloonStorage.values;
  simpl.


(** ** Lemmas on the operators *)

Lemma falsy_empty s : falsy s = true <-> s = "".
Proof. destruct s; simpl; split; congruence. Qed.

Lemma falsy_nonempty s : falsy s = false <-> s ≠ "".
Proof. destruct s; simpl; split; congruence. Qed.

Lemma strict_ne_principal (a b : Principal) :
  strict_ne (toString a) (toString b) = true <-> a ≠ b.
Proof.
  unfold strict_ne. destruct a as [x], b as [y]; simpl.
  rewrite negb_true_iff. destruct (String.eqb_spec x y) as [->|Hne].
  - split; [discriminate | congruence].
  - split; [congruence | reflexivity].
Qed.

Lemma strict_ne_same (a b : Principal) :
  a = b -> strict_ne (toString a) (toString b) = false.
Proof.
  intros ->. unfold strict_ne. now rewrite String.eqb_refl.
Qed.

(** Comparison of binary64 values: swapping the operands reverses the
    order, and NaN stays unordered. *)
Lemma SFcompare_swap x y c :
  SFcompare x y = Some c -> SFcompare y x = Some (CompOpp c).
Proof.
  destruct x as [sx| sx| |sx mx ex], y as [sy| sy| |sy my ey]; simpl;
    try discriminate;
    try (intros [= <-]; repeat match goal with b : bool |- _ => destruct b end;
         reflexivity).
  intros [= <-]. destruct sx, sy; simpl; try reflexivity.
  - rewrite (Z.compare_antisym ex ey).
    destruct (ex ?= ey)%Z; simpl; try reflexivity.
    rewrite (Pos.compare_cont_antisym mx my Eq). reflexivity.
  - rewrite (Z.compare_antisym ex ey).
    destruct (ex ?= ey)%Z; simpl; try reflexivity.
    rewrite (Pos.compare_cont_antisym mx my Eq). reflexivity.
Qed.

Lemma leb_ltb_false (x y : float) :
  PrimFloat.leb x y = true -> PrimFloat.ltb y x = false.
Proof.
  rewrite leb_spec, ltb_spec. unfold SFleb, SFltb.
  destruct (SFcompare (Prim2SF x) (Prim2SF y)) as [c|] eqn:E;
    [| discriminate].
  rewrite (SFcompare_swap _ _ _ E). destruct c; simpl; congruence.
Qed.

(** A rate within [0, 5] passes the range check of [rateSaloon]. *)
Lemma rate_in_range (v : number) :
  PrimFloat.leb 0%float v = true -> PrimFloat.leb v 5%float = true ->
  lt v 0%float || gt v 5%float = false.
Proof.
  intros H0 H5. unfold lt, gt.
  now rewrite (leb_ltb_false _ _ H0), (leb_ltb_false _ _ H5).
Qed.

(** ** Lemmas on the store *)

Lemma keyed_empty : keyed ∅.
Proof. intros k s H. now rewrite lookup_empty in H. Qed.

Lemma keyed_insert (st : Store) (s : Saloon.t) :
  keyed st -> keyed (<[Saloon.id s := s]> st).
Proof.
  intros Hst k s' H. destruct (decide (Saloon.id s = k)) as [<-|Hne].
  - rewrite lookup_insert_eq in H. now inversion H.
  - rewrite lookup_insert_ne in H by assumption. now apply Hst.
Qed.

Lemma keyed_delete (st : Store) (k : string) : keyed st -> keyed (delete k st).
Proof.
  intros Hst k' s H. apply lookup_delete_Some in H as [_ H]. now apply Hst.
Qed.

Lemma keyed_store0 : keyed store0.
Proof.
  intros k s H. unfold store0 in H.
  apply lookup_singleton_Some in H as [<- <-]. reflexivity.
Qed.

Lemma store0_lookup : store0 !! id0 = Some saloon0.
Proof. apply lookup_singleton_eq. Qed.

(** ** [rateSaloon] *)

(** C1. In a store that keeps every record under its own id, rating a
    stored saloon of rating [r] with a value [v] in [0, 5] returns [Ok] of
    the saloon with rating [(r + v) / 5] and [updatedAt] the current time,
    and that record is stored under the same id.  A saloon rated 1.0 that
    receives 5 ends with rating 1.2. *)
Theorem rateSaloon_blends_rating
  (ic : Env) (st : Store) (k : string) (s : Saloon.t) (v : number) :
  keyed st ->
  st !! k = Some s ->
  PrimFloat.leb 0%float v = true ->
  PrimFloat.leb v 5%float = true ->
  let s' := with_updatedAt (Some (time ic))
              (with_rating ((Saloon.rating s + v) / 5)%float s) in
  rateSaloon ic k v st = (Ok s', <[k := s']> st)
  /\ (Saloon.rating s = 1.0%float -> v = 5%float ->
      Saloon.rating s' = 1.2%float).
Proof.
  intros Hkeyed Hs H0 H5 s'. split.
  - pose proof (Hkeyed k s Hs) as <-.
    unfold rateSaloon. rewrite (rate_in_range v H0 H5). run_store.
    rewrite Hs. reflexivity.
  - intros Hr ->. subst s'. simpl. rewrite Hr. reflexivity.
Qed.

Lemma rateSaloon_blends_rating_witness :
  let s' := with_updatedAt (Some 2000%N) (with_rating 1.2%float saloon0) in
  rateSaloon env1 id0 5%float store0 = (Ok s', <[id0 := s']> store0)
  /\ Saloon.rating s' = 1.2%float.
Proof.
  destruct (rateSaloon_blends_rating env1 store0 id0 saloon0 5%float
              keyed_store0 store0_lookup eq_refl eq_refl) as [Hcall Hrating].
  split; [exact Hcall | exact (Hrating eq_refl eq_refl)].
Defined.

(** ** [deleteSaloon] *)

(** C2. Deleting a stored saloon as somebody else than its owner returns
    the not-the-owner error, and the store that the call leaves no longer
    has the id: looking it up there finds nothing, and [getSaloonById]
    answers that the saloon does not exist (ids are not empty). *)
Theorem deleteSaloon_not_owner_removes
  (ic : Env) (st : Store) (k : string) (s : Saloon.t) :
  st !! k = Some s ->
  Saloon.owner s ≠ caller ic ->
  deleteSaloon ic k st
    = (Err "You are not the owner of this saloon", delete k st)
  /\ (deleteSaloon ic k st).2 !! k = None
  /\ (k ≠ "" ->
      (getSaloonById k (deleteSaloon ic k st).2).1
        = Err ("Saloon with id=" +:+ k +:+ " does not exist")).
Proof.
  intros Hs Hne.
  assert (Hcall : deleteSaloon ic k st
            = (Err "You are not the owner of this saloon", delete k st)).
  { unfold deleteSaloon. run_store. rewrite Hs.
    apply strict_ne_principal in Hne. now rewrite Hne. }
  rewrite Hcall. simpl. split; [reflexivity | split].
  - apply lookup_delete_eq.
  - intros Hk. unfold getSaloonById.
    apply falsy_nonempty in Hk. rewrite Hk. run_store.
    now rewrite lookup_delete_eq.
Qed.

Lemma deleteSaloon_not_owner_removes_witness :
  deleteSaloon env2 id0 store0
    = (Err "You are not the owner of this saloon", delete id0 store0)
  /\ (deleteSaloon env2 id0 store0).2 !! id0 = None
  /\ (getSaloonById id0 (deleteSaloon env2 id0 store0).2).1
       = Err ("Saloon with id=" +:+ id0 +:+ " does not exist").
Proof.
  destruct (deleteSaloon_not_owner_removes env2 store0 id0 saloon0
              store0_lookup ltac:(discriminate)) as (Hcall & Hgone & Hget).
  split; [exact Hcall | split; [exact Hgone | apply Hget; discriminate]].
Defined.

(** ** [createService] *)

(** C3. [createService] on a stored saloon, called by somebody else than
    its owner, returns the not-the-owner error and leaves the store as it
    was, so the saloon keeps the length of its [servicesRendered]; and an
    id without a record is refused as not found before any ownership is
    looked at, whoever calls. *)
Theorem createService_not_owner_or_missing
  (ic : Env) (st : Store) (k : string) (p : ServiceRenderedPayload) :
  (forall s, st !! k = Some s -> Saloon.owner s ≠ caller ic ->
     createService ic k p st
       = (Err "You are not the owner of this saloon", st)
     /\ exists s', (createService ic k p st).2 !! k = Some s'
          /\ length (Saloon.servicesRendered s')
             = length (Saloon.servicesRendered s))
  /\ (st !! k = None ->
      createService ic k p st
        = (Err "Unable to carry out the following function", st)).
Proof.
  split.
  - intros s Hs Hne.
    assert (Hcall : createService ic k p st
              = (Err "You are not the owner of this saloon", st)).
    { unfold createService. run_store. rewrite Hs.
      apply strict_ne_principal in Hne. now rewrite Hne. }
    rewrite Hcall. split; [reflexivity |]. exists s. now split.
  - intros Hnone. unfold createService. run_store. now rewrite Hnone.
Qed.

Lemma createService_not_owner_or_missing_witness :
  (createService env2 id0 service0 store0
     = (Err "You are not the owner of this saloon", store0)
   /\ exists s', (createService env2 id0 service0 store0).2 !! id0 = Some s'
        /\ length (Saloon.servicesRendered s')
           = length (Saloon.servicesRendered saloon0))
  /\ createService env2 "no-such-id" service0 store0
       = (Err "Unable to carry out the following function", store0).
Proof.
  destruct (createService_not_owner_or_missing env2 store0 id0 service0)
    as [Hdenied _].
  destruct (createService_not_owner_or_missing env2 store0 "no-such-id"
              service0) as [_ Hmissing].
  split.
  - apply (Hdenied saloon0 store0_lookup). discriminate.
  - apply Hmissing. reflexivity.
Defined.

(** C4. [createService] on a stored saloon, called by its owner, returns
    [Ok] of the saloon with one new entry after the entries it had, which
    stay in their order; that record replaces the stored one under the
    same id and its [updatedAt] is the old one.  A second call by the
    owner appends its entry after the first, and the two entries carry
    the two generated ids, distinct when the generator gave distinct
    ids. *)
Theorem createService_owner_appends
  (ic : Env) (st : Store) (k : string) (s : Saloon.t)
  (p : ServiceRenderedPayload) :
  keyed st ->
  st !! k = Some s ->
  Saloon.owner s = caller ic ->
  let s1 := with_servicesRendered
              (Saloon.servicesRendered s ++ [service_of ic p])%list s in
  createService ic k p st = (Ok s1, <[k := s1]> st)
  /\ Saloon.updatedAt s1 = Saloon.updatedAt s
  /\ last (Saloon.servicesRendered s1) = Some (service_of ic p)
  /\ take (length (Saloon.servicesRendered s)) (Saloon.servicesRendered s1)
     = Saloon.servicesRendered s
  /\ length (Saloon.servicesRendered s1)
     = S (length (Saloon.servicesRendered s))
  /\ forall (ic' : Env) (p' : ServiceRenderedPayload),
       caller ic' = Saloon.owner s ->
       uuidv4 ic' ≠ uuidv4 ic ->
       let s2 := with_servicesRendered
                   (Saloon.servicesRendered s
                    ++ [service_of ic p; service_of ic' p'])%list s in
       createService ic' k p' (createService ic k p st).2
         = (Ok s2, <[k := s2]> st)
       /\ ServiceRendered.id (service_of ic p)
          ≠ ServiceRendered.id (service_of ic' p').
Proof.
  intros Hkeyed Hs Howner s1.
  pose proof (Hkeyed k s Hs) as <-.
  assert (Hcall : createService ic (Saloon.id s) p st
            = (Ok s1, <[Saloon.id s := s1]> st)).
  { unfold createService. run_store. rewrite Hs.
    now rewrite (strict_ne_same _ _ Howner). }
  split; [exact Hcall |]. split; [reflexivity |].
  split; [apply last_snoc |]. split; [apply take_app_length |].
  split.
  { subst s1. simpl. rewrite length_app. simpl. lia. }
  intros ic' p' Howner' Hfresh s2. rewrite Hcall. simpl. split.
  - unfold createService. run_store. rewrite lookup_insert_eq. simpl.
    rewrite strict_ne_same by (symmetry; exact Howner'). simpl.
    rewrite insert_insert_eq. subst s2. unfold with_servicesRendered.
    simpl. now rewrite <- app_assoc.
  - simpl. congruence.
Qed.

Lemma createService_owner_appends_witness :
  let s1 := with_servicesRendered [service_of env0 service0] saloon0 in
  let s2 := with_servicesRendered
              [service_of env0 service0; service_of env1 service1] saloon0 in
  createService env0 id0 service0 store0 = (Ok s1, <[id0 := s1]> store0)
  /\ createService env1 id0 service1
       (createService env0 id0 service0 store0).2
     = (Ok s2, <[id0 := s2]> store0)
  /\ ServiceRendered.id (service_of env0 service0)
     ≠ ServiceRendered.id (service_of env1 service1).
Proof.
  destruct (createService_owner_appends env0 store0 id0 saloon0 service0
              keyed_store0 store0_lookup eq_refl)
    as (Hcall & _ & _ & _ & _ & Htwice).
  destruct (Htwice env1 service1 eq_refl ltac:(discriminate))
    as [Hcall' Hids].
  split; [exact Hcall | split; [exact Hcall' | exact Hids]].
Defined.

(** ** [getAllSaloons] *)

Lemma values_length (st : Store) :
  length (saloonStorage.values st).1 = size st.
Proof.
  unfold saloonStorage.values. simpl.
  now rewrite length_fmap, length_map_to_list.
Qed.

Lemma values_elem_of (st : Store) (s : Saloon.t) :
  s ∈ (saloonStorage.values st).1 <-> exists k, st !! k = Some s.
Proof.
  unfold saloonStorage.values. simpl. rewrite list_elem_of_fmap. split.
  - intros [[k s'] [-> Hin]]. exists k. now apply elem_of_map_to_list.
  - intros [k Hk]. exists (k, s). split; [reflexivity |].
    now apply elem_of_map_to_list.
Qed.

(** C5. [getAllSaloons] returns an error on the store without saloons;
    on any other store it returns [Ok] of a sequence that holds the stored
    saloons, all of them and one entry for each; and after one
    [createSaloon] on the empty store it returns the one-element sequence
    of the saloon created. *)
Theorem getAllSaloons_empty_is_error (st : Store) :
  (st = ∅ -> getAllSaloons st = (Err "No saloons found.", st))
  /\ (st ≠ ∅ ->
      exists l, getAllSaloons st = (Ok l, st)
        /\ (forall s, s ∈ l <-> exists k, st !! k = Some s)
        /\ length l = size st)
  /\ (forall (ic : Env) (p : SaloonPayload) (s : Saloon.t),
        (createSaloon ic p ∅).1 = Ok s ->
        getAllSaloons (createSaloon ic p ∅).2
          = (Ok [s], (createSaloon ic p ∅).2)).
Proof.
  split; [| split].
  - intros ->. reflexivity.
  - intros Hne. exists (saloonStorage.values st).1.
    split; [| split].
    + unfold getAllSaloons. run_store.
      pose proof (values_length st) as Hlen. simpl in Hlen. rewrite Hlen.
      destruct (size st) as [|n] eqn:Hsize; [| reflexivity].
      now apply map_size_empty_iff in Hsize.
    + apply values_elem_of.
    + apply values_length.
  - intros ic p s Hok. unfold createSaloon in *.
    destruct (falsy (saloonName p) || falsy (saloonLocation p)
              || falsy (attachmentURL p)); [discriminate |].
    revert Hok. run_store. intros [= <-].
    unfold getAllSaloons. run_store. rewrite insert_empty.
    now rewrite map_to_list_singleton.
Qed.

Lemma getAllSaloons_empty_is_error_witness :
  getAllSaloons (∅ : Store) = (Err "No saloons found.", ∅)
  /\ (exists l, getAllSaloons store0 = (Ok l, store0)
        /\ (forall s, s ∈ l <-> exists k, store0 !! k = Some s)
        /\ length l = size store0)
  /\ getAllSaloons (createSaloon env0 payload0 ∅).2
     = (Ok [saloon0], (createSaloon env0 payload0 ∅).2).
Proof.
  destruct (getAllSaloons_empty_is_error ∅) as (Hempty & _ & Hone).
  destruct (getAllSaloons_empty_is_error store0) as (_ & Hsome & _).
  split; [exact (Hempty eq_refl) | split].
  - apply Hsome. intros Heq.
    pose proof store0_lookup as Hl. rewrite Heq, lookup_empty in Hl.
    discriminate.
  - exact (Hone env0 payload0 saloon0 eq_refl).
Defined.

(** ** [createSaloon] *)

(** C6. [createSaloon] returns the missing-fields error and leaves the
    store as it was when one of [saloonName], [saloonLocation],
    [attachmentURL] is empty; when none is, it returns [Ok] of the record
    with owner the caller, rating 1.0, no service, [createdAt] the current
    time, no [updatedAt] and the generated id, and it has inserted this
    record under this id. *)
Theorem createSaloon_validates_then_inserts
  (ic : Env) (st : Store) (p : SaloonPayload) :
  (saloonName p = "" \/ saloonLocation p = "" \/ attachmentURL p = "" ->
   createSaloon ic p st = (Err "Missing required fields in payload", st))
  /\ (saloonName p ≠ "" -> saloonLocation p ≠ "" -> attachmentURL p ≠ "" ->
      let s := {| Saloon.owner := caller ic;
                  Saloon.id := uuidv4 ic;
                  Saloon.saloonName := saloonName p;
                  Saloon.saloonLocation := saloonLocation p;
                  Saloon.attachmentURL := attachmentURL p;
                  Saloon.servicesRendered := [];
                  Saloon.rating := 1.0%float;
                  Saloon.createdAt := time ic;
                  Saloon.updatedAt := None |} in
      createSaloon ic p st = (Ok s, <[uuidv4 ic := s]> st)
      /\ (createSaloon ic p st).2 !! uuidv4 ic = Some s).
Proof.
  split.
  - intros H. unfold createSaloon.
    assert (falsy (saloonName p) || falsy (saloonLocation p)
            || falsy (attachmentURL p) = true) as ->; [| reflexivity].
    rewrite !orb_true_iff, !falsy_empty. tauto.
  - intros H1 H2 H3 s. unfold createSaloon.
    apply falsy_nonempty in H1, H2, H3. rewrite H1, H2, H3. run_store.
    split; [reflexivity | apply lookup_insert_eq].
Qed.

Lemma createSaloon_validates_then_inserts_witness :
  createSaloon env0 {| saloonName := "Glow"; saloonLocation := "";
                       attachmentURL := "u" |} store0
    = (Err "Missing required fields in payload", store0)
  /\ createSaloon env1 payload1 store0
     = (Ok (saloon_of env1 payload1),
        <[uuidv4 env1 := saloon_of env1 payload1]> store0)
  /\ (createSaloon env1 payload1 store0).2 !! uuidv4 env1
     = Some (saloon_of env1 payload1).
Proof.
  destruct (createSaloon_validates_then_inserts env0 store0
              {| saloonName := "Glow"; saloonLocation := "";
                 attachmentURL := "u" |}) as [Herr _].
  destruct (createSaloon_validates_then_inserts env1 store0 payload1)
    as [_ Hok].
  split; [apply Herr; right; left; reflexivity |].
  apply Hok; discriminate.
Defined.

(** ** [updateSaloonById] *)

(** C7. [updateSaloonById] on a stored saloon returns [Ok] of the record
    with the three text fields of the payload, [updatedAt] the current
    time whatever it was before, and the id, owner, rating, services and
    [createdAt] it had, and stores that record under the same id; on an id
    without a record it returns the not-found error and leaves the store
    as it was. *)
Theorem updateSaloonById_merges_payload
  (ic : Env) (st : Store) (k : string) (p : SaloonPayload) :
  (keyed st ->
   forall s, st !! k = Some s ->
     let s' := {| Saloon.owner := Saloon.owner s;
                  Saloon.id := Saloon.id s;
                  Saloon.saloonName := saloonName p;
                  Saloon.saloonLocation := saloonLocation p;
                  Saloon.attachmentURL := attachmentURL p;
                  Saloon.servicesRendered := Saloon.servicesRendered s;
                  Saloon.rating := Saloon.rating s;
                  Saloon.createdAt := Saloon.createdAt s;
                  Saloon.updatedAt := Some (time ic) |} in
     updateSaloonById ic k p st = (Ok s', <[k := s']> st)
     /\ (updateSaloonById ic k p st).2 !! k = Some s')
  /\ (st !! k = None ->
      updateSaloonById ic k p st
        = (Err ("couldn't update the saloon with this id=" +:+ k
                +:+ ". saloon not found"), st)).
Proof.
  split.
  - intros Hkeyed s Hs s'. pose proof (Hkeyed k s Hs) as <-.
    assert (Hcall : updateSaloonById ic (Saloon.id s) p st
              = (Ok s', <[Saloon.id s := s']> st)).
    { unfold updateSaloonById. run_store. now rewrite Hs. }
    rewrite Hcall. split; [reflexivity | apply lookup_insert_eq].
  - intros Hnone. unfold updateSaloonById. run_store. now rewrite Hnone.
Qed.

Lemma updateSaloonById_merges_payload_witness :
  (let s' := with_updatedAt (Some 2000%N) (with_payload payload1 saloon0) in
   Saloon.updatedAt saloon0 = None
   /\ updateSaloonById env1 id0 payload1 store0
      = (Ok s', <[id0 := s']> store0)
   /\ (updateSaloonById env1 id0 payload1 store0).2 !! id0 = Some s')
  /\ updateSaloonById env1 "no-such-id" payload1 store0
     = (Err "couldn't update the saloon with this id=no-such-id. saloon not found",
        store0).
Proof.
  destruct (updateSaloonById_merges_payload env1 store0 id0 payload1)
    as [Hfound _].
  destruct (updateSaloonById_merges_payload env1 store0 "no-such-id"
              payload1) as [_ Hmissing].
  split.
  - split; [reflexivity |].
    exact (Hfound keyed_store0 saloon0 store0_lookup).
  - exact (Hmissing eq_refl).
Defined.

(** C8. [updateSaloonById] checks no ownership: two calls that differ in
    the caller only (same store, id, payload and time) return the same
    result and leave the same store; and a caller who is not the owner of
    a stored saloon gets [Ok]. *)
Theorem updateSaloonById_ignores_caller
  (ic1 ic2 : Env) (st : Store) (k : string) (p : SaloonPayload) :
  time ic1 = time ic2 ->
  updateSaloonById ic1 k p st = updateSaloonById ic2 k p st
  /\ forall s, st !! k = Some s -> Saloon.owner s ≠ caller ic1 ->
       exists s', (updateSaloonById ic1 k p st).1 = Ok s'
         /\ (updateSaloonById ic1 k p st).2 !! Saloon.id s = Some s'
         /\ Saloon.saloonName s' = saloonName p.
Proof.
  intros Htime. split.
  - unfold updateSaloonById. run_store. now rewrite Htime.
  - intros s Hs _. unfold updateSaloonById. run_store. rewrite Hs. simpl.
    eexists. split; [reflexivity |]. split; [apply lookup_insert_eq |].
    reflexivity.
Qed.

Lemma updateSaloonById_ignores_caller_witness :
  Saloon.owner saloon0 ≠ caller env2
  /\ updateSaloonById env2 id0 payload1 store0
     = updateSaloonById
         {| caller := alice; time := time env2; uuidv4 := uuidv4 env2 |}
         id0 payload1 store0
  /\ exists s', (updateSaloonById env2 id0 payload1 store0).1 = Ok s'
       /\ (updateSaloonById env2 id0 payload1 store0).2 !! Saloon.id saloon0
          = Some s'
       /\ Saloon.saloonName s' = saloonName payload1.
Proof.
  destruct (updateSaloonById_ignores_caller env2
              {| caller := alice; time := time env2; uuidv4 := uuidv4 env2 |}
              store0 id0 payload1 eq_refl) as [Hsame Hok].
  split; [discriminate | split; [exact Hsame |]].
  apply (Hok saloon0 store0_lookup). discriminate.
Defined.

(** ** [getSaloonById] *)

(** C9. [getSaloonById] returns the invalid-id error on the empty id
    whatever the store holds, the not-found error on a non-empty id
    without a record, and [Ok] of the stored record otherwise; the store
    is the same after the call in the three cases. *)
Theorem getSaloonById_three_cases (st : Store) (k : string) :
  getSaloonById "" st = (Err "Invalid id", st)
  /\ (k ≠ "" -> st !! k = None ->
      getSaloonById k st
        = (Err ("Saloon with id=" +:+ k +:+ " does not exist"), st))
  /\ (k ≠ "" -> forall s, st !! k = Some s ->
      getSaloonById k st = (Ok s, st)).
Proof.
  split; [reflexivity | split].
  - intros Hk Hnone. unfold getSaloonById.
    apply falsy_nonempty in Hk. rewrite Hk. run_store. now rewrite Hnone.
  - intros Hk s Hs. unfold getSaloonById.
    apply falsy_nonempty in Hk. rewrite Hk. run_store. now rewrite Hs.
Qed.

Lemma getSaloonById_three_cases_witness :
  getSaloonById "" store0 = (Err "Invalid id", store0)
  /\ getSaloonById "no-such-id" store0
     = (Err "Saloon with id=no-such-id does not exist", store0)
  /\ getSaloonById id0 store0 = (Ok saloon0, store0).
Proof.
  destruct (getSaloonById_three_cases store0 "no-such-id")
    as (Hinvalid & Hmissing & _).
  destruct (getSaloonById_three_cases store0 id0) as (_ & _ & Hfound).
  split; [exact Hinvalid | split].
  - apply Hmissing; [discriminate | reflexivity].
  - apply Hfound; [discriminate | exact store0_lookup].
Defined.

(** ** The store-key invariant *)

Lemma exec_keyed (ic : Env) (c : Call) (st : Store) :
  keyed st -> keyed (exec ic c st).
Proof.
  intros Hst. destruct c as [|id|p|id p|id|id rate|id p]; simpl.
  - unfold getAllSaloons. run_store. now destruct (Nat.eqb _ _).
  - unfold getSaloonById. destruct (falsy id); [exact Hst |].
    run_store. now destruct (st !! id).
  - unfold createSaloon.
    destruct (falsy (saloonName p) || falsy (saloonLocation p)
              || falsy (attachmentURL p)); [exact Hst |].
    run_store. now apply (keyed_insert st (saloon_of ic p)).
  - unfold createService. run_store.
    destruct (st !! id) as [s|]; [| exact Hst].
    destruct (strict_ne _ _); [exact Hst |]. simpl.
    now apply (keyed_insert st
                 (with_servicesRendered
                    (Saloon.servicesRendered s ++ [service_of ic p])%list s)).
  - unfold deleteSaloon. run_store.
    destruct (st !! id) as [s|]; [| now apply keyed_delete].
    destruct (strict_ne _ _); simpl; [now apply keyed_delete |].
    now apply keyed_delete, keyed_delete.
  - unfold rateSaloon. destruct (lt rate _ || gt rate _); [exact Hst |].
    run_store. destruct (st !! id) as [s|]; [| exact Hst]. simpl.
    now apply (keyed_insert st
                 (with_updatedAt (Some (time ic))
                    (with_rating ((Saloon.rating s + rate) / 5)%float s))).
  - unfold updateSaloonById. run_store.
    destruct (st !! id) as [s|]; [| exact Hst]. simpl.
    now apply (keyed_insert st
                 (with_updatedAt (Some (time ic)) (with_payload p s))).
Qed.

Lemma reachable_keyed (st : Store) : reachable st -> keyed st.
Proof.
  induction 1 as [|ic c st _ IH]; [exact keyed_empty | now apply exec_keyed].
Qed.

(** C10. In every store that calls of the exported functions build from
    the empty store, each record is stored under its own [id]; and each
    of [createSaloon], [createService], [rateSaloon], [updateSaloonById]
    and [deleteSaloon] takes a store with this property to one with it. *)
Theorem store_key_invariant (st : Store) :
  (reachable st -> keyed st)
  /\ (keyed st ->
      forall (ic : Env) (id : string) (p : SaloonPayload)
             (sp : ServiceRenderedPayload) (rate : number),
        keyed (createSaloon ic p st).2
        /\ keyed (createService ic id sp st).2
        /\ keyed (rateSaloon ic id rate st).2
        /\ keyed (updateSaloonById ic id p st).2
        /\ keyed (deleteSaloon ic id st).2).
Proof.
  split; [apply reachable_keyed |].
  intros Hst ic id p sp rate. repeat split.
  - exact (exec_keyed ic (CreateSaloon p) st Hst).
  - exact (exec_keyed ic (CreateService id sp) st Hst).
  - exact (exec_keyed ic (RateSaloon id rate) st Hst).
  - exact (exec_keyed ic (UpdateSaloonById id p) st Hst).
  - exact (exec_keyed ic (DeleteSaloon id) st Hst).
Qed.

Lemma store3_reachable : reachable store3.
Proof. repeat apply reachable_call. apply reachable_empty. Qed.

Lemma store_key_invariant_witness :
  keyed store3
  /\ keyed (deleteSaloon env2 id0 store3).2
  /\ keyed (updateSaloonById env2 id0 payload1 store3).2.
Proof.
  destruct (store_key_invariant store3) as [Hreach Hstep].
  pose proof (Hreach store3_reachable) as Hkeyed.
  destruct (Hstep Hkeyed env2 id0 payload1 service1 4%float)
    as (_ & _ & _ & Hupdate & Hdelete).
  split; [exact Hkeyed | split; [exact Hdelete | exact Hupdate]].
Defined.

(** * Further properties of the exported functions *)

(** ** The store that a call leaves *)

Lemma strict_ne_false (a b : Principal) :
  strict_ne (toString a) (toString b) = false -> a = b.
Proof.
  unfold strict_ne. destruct a as [x], b as [y]; simpl.
  rewrite negb_false_iff. now intros ->%String.eqb_eq.
Qed.

(** In a store keyed by record id, a call leaves the store as it was,
    deletes its id, or replaces (for [createSaloon], inserts) one
    record. *)
Lemma exec_shape (ic : Env) (c : Call) (st : Store) :
  keyed st ->
  exec ic c st = st
  \/ (exists id, c = DeleteSaloon id /\ exec ic c st = delete id st)
  \/ (exists p, c = CreateSaloon p
        /\ falsy (saloonName p) || falsy (saloonLocation p)
           || falsy (attachmentURL p) = false
        /\ exec ic c st = <[uuidv4 ic := saloon_of ic p]> st)
  \/ (exists id p s, c = CreateService id p /\ st !! id = Some s
        /\ Saloon.owner s = caller ic
        /\ exec ic c st
           = <[id := with_servicesRendered
                       (Saloon.servicesRendered s ++ [service_of ic p])%list
                       s]> st)
  \/ (exists id v s, c = RateSaloon id v /\ st !! id = Some s
        /\ exec ic c st
           = <[id := with_updatedAt (Some (time ic))
                       (with_rating ((Saloon.rating s + v) / 5)%float s)]> st)
  \/ (exists id p s, c = UpdateSaloonById id p /\ st !! id = Some s
        /\ exec ic c st
           = <[id := with_updatedAt (Some (time ic)) (with_payload p s)]> st).
Proof.
  intros Hst. destruct c as [|id|p|id p|id|id rate|id p]; simpl.
  - left. unfold getAllSaloons. run_store. now destruct (Nat.eqb _ _).
  - left. unfold getSaloonById. destruct (falsy id); [reflexivity |].
    run_store. now destruct (st !! id).
  - unfold createSaloon.
    destruct (falsy (saloonName p) || falsy (saloonLocation p)
              || falsy (attachmentURL p)) eqn:Hvalid; [now left |].
    right; right; left. now exists p.
  - unfold createService. run_store.
    destruct (st !! id) as [s|] eqn:Hs; [| now left].
    destruct (strict_ne _ _) eqn:Hown; [now left |].
    right; right; right; left. exists id, p, s.
    split; [reflexivity | split; [done | split]].
    + now apply strict_ne_false.
    + simpl. now rewrite <- (Hst id s Hs).
  - right; left. exists id. split; [reflexivity |].
    unfold deleteSaloon. run_store.
    destruct (st !! id) as [s|]; [| reflexivity].
    destruct (strict_ne _ _); simpl; [reflexivity |].
    apply delete_delete_eq.
  - unfold rateSaloon. destruct (lt rate _ || gt rate _); [now left |].
    run_store. destruct (st !! id) as [s|] eqn:Hs; [| now left].
    right; right; right; right; left. exists id, rate, s.
    split; [reflexivity | split; [done |]].
    simpl. now rewrite <- (Hst id s Hs).
  - unfold updateSaloonById. run_store.
    destruct (st !! id) as [s|] eqn:Hs; [| now left].
    right; right; right; right; right. exists id, p, s.
    split; [reflexivity | split; [done |]].
    simpl. now rewrite <- (Hst id s Hs).
Qed.

(** ** [rateSaloon]: refusals and the value the range check lets through *)

(** X1. [rateSaloon] refuses a rate below 0 or above 5 with the
    invalid-rating error before it looks at the store, so also for an id
    without a record; a rate that passes the check on an id without a
    record gets the not-found error of the second lookup; the store is
    left as it was in both cases. *)
Theorem rateSaloon_refusals
  (ic : Env) (st : Store) (k : string) (v : number) :
  (PrimFloat.ltb v 0%float = true \/ PrimFloat.ltb 5%float v = true ->
   rateSaloon ic k v st
     = (Err ("Error rating saloon with the id=" +:+ k
             +:+ ". Invalid rating value. Value should not be more than 5 or less than 0"),
        st))
  /\ (PrimFloat.ltb v 0%float = false -> PrimFloat.ltb 5%float v = false ->
      st !! k = None ->
      rateSaloon ic k v st
        = (Err ("Error rating saloon with the id=" +:+ k
                +:+ ". Saloon not found"), st)).
Proof.
  split.
  - intros Hout. unfold rateSaloon, lt, gt.
    assert (PrimFloat.ltb v 0 || PrimFloat.ltb 5 v = true) as ->;
      [| reflexivity].
    apply orb_true_iff. exact Hout.
  - intros H0 H5 Hnone. unfold rateSaloon, lt, gt. rewrite H0, H5.
    run_store. now rewrite Hnone.
Qed.

Lemma rateSaloon_refusals_witness :
  rateSaloon env2 id0 (-1)%float store0
    = (Err ("Error rating saloon with the id=" +:+ id0
            +:+ ". Invalid rating value. Value should not be more than 5 or less than 0"),
       store0)
  /\ rateSaloon env2 "no-such-id" 6%float store0
     = (Err "Error rating saloon with the id=no-such-id. Invalid rating value. Value should not be more than 5 or less than 0",
        store0)
  /\ rateSaloon env2 "no-such-id" 3%float store0
     = (Err "Error rating saloon with the id=no-such-id. Saloon not found",
        store0).
Proof.
  destruct (rateSaloon_refusals env2 store0 id0 (-1)%float) as [Hlow _].
  destruct (rateSaloon_refusals env2 store0 "no-such-id" 6%float)
    as [Hhigh _].
  destruct (rateSaloon_refusals env2 store0 "no-such-id" 3%float)
    as [_ Hmissing].
  split; [apply Hlow; left; reflexivity | split].
  - apply Hhigh. right. reflexivity.
  - apply Hmissing; reflexivity.
Defined.

(** Adding NaN gives NaN. *)
Lemma add_nan_r (x : float) : (x + nan)%float = nan.
Proof.
  apply Prim2SF_inj. rewrite add_spec.
  change (Prim2SF nan) with S754_nan.
  unfold SF64add, SFadd. now destruct (Prim2SF x).
Qed.

(** X2. The range check of [rateSaloon] does not stop NaN, which is
    neither below 0 nor above 5: rating a stored saloon with NaN returns
    [Ok] and stores the saloon with rating NaN, whatever its rating
    was. *)
Theorem rateSaloon_accepts_nan
  (ic : Env) (st : Store) (k : string) (s : Saloon.t) :
  keyed st ->
  st !! k = Some s ->
  let s' := with_updatedAt (Some (time ic)) (with_rating nan s) in
  rateSaloon ic k nan st = (Ok s', <[k := s']> st).
Proof.
  intros Hkeyed Hs s'. pose proof (Hkeyed k s Hs) as <-.
  unfold rateSaloon.
  change (lt nan 0%float || gt nan 5%float) with false.
  run_store. rewrite Hs.
  simpl. rewrite add_nan_r. reflexivity.
Qed.

Lemma rateSaloon_accepts_nan_witness :
  let s' := with_updatedAt (Some 3000%N) (with_rating nan saloon0) in
  rateSaloon env2 id0 nan store0 = (Ok s', <[id0 := s']> store0).
Proof.
  exact (rateSaloon_accepts_nan env2 store0 id0 saloon0
           keyed_store0 store0_lookup).
Defined.

(** ** [deleteSaloon]: every branch *)

(** X3. Whatever [deleteSaloon] returns, the store it leaves is the old
    one without the id.  Called by the owner of a stored saloon it
    returns [Ok] of the removed record; on an id without a record it
    returns the not-found error and the store is the old one. *)
Theorem deleteSaloon_every_branch (ic : Env) (st : Store) (k : string) :
  (deleteSaloon ic k st).2 = delete k st
  /\ (forall s, st !! k = Some s -> Saloon.owner s = caller ic ->
        deleteSaloon ic k st = (Ok s, delete k st))
  /\ (st !! k = None ->
      deleteSaloon ic k st
        = (Err ("couldn't delete saloon with this id=" +:+ k
                +:+ ". saloon not found."), st)).
Proof.
  split; [| split].
  - unfold deleteSaloon. run_store.
    destruct (st !! k) as [s|]; [| reflexivity].
    destruct (strict_ne _ _); simpl; [reflexivity | apply delete_delete_eq].
  - intros s Hs Hown. unfold deleteSaloon. run_store. rewrite Hs.
    rewrite (strict_ne_same _ _ Hown). simpl. now rewrite delete_delete_eq.
  - intros Hnone. unfold deleteSaloon. run_store. rewrite Hnone.
    now rewrite (delete_id st k Hnone).
Qed.

Lemma deleteSaloon_every_branch_witness :
  (deleteSaloon env1 id0 store0).2 = delete id0 store0
  /\ deleteSaloon env1 id0 store0 = (Ok saloon0, delete id0 store0)
  /\ deleteSaloon env1 "no-such-id" store0
     = (Err "couldn't delete saloon with this id=no-such-id. saloon not found.",
        store0).
Proof.
  destruct (deleteSaloon_every_branch env1 store0 id0) as (Hstore & Hown & _).
  destruct (deleteSaloon_every_branch env1 store0 "no-such-id")
    as (_ & _ & Hmissing).
  split; [exact Hstore | split].
  - exact (Hown saloon0 store0_lookup eq_refl).
  - exact (Hmissing eq_refl).
Defined.

(** ** Refusals leave the store alone *)

(** X4. When [createSaloon], [createService], [rateSaloon] or
    [updateSaloonById] returns an error, the store is the one before the
    call. *)
Theorem errors_leave_the_store (ic : Env) (st : Store) :
  (forall p e, (createSaloon ic p st).1 = Err e ->
     (createSaloon ic p st).2 = st)
  /\ (forall k p e, (createService ic k p st).1 = Err e ->
        (createService ic k p st).2 = st)
  /\ (forall k v e, (rateSaloon ic k v st).1 = Err e ->
        (rateSaloon ic k v st).2 = st)
  /\ (forall k p e, (updateSaloonById ic k p st).1 = Err e ->
        (updateSaloonById ic k p st).2 = st).
Proof.
  split; [| split; [| split]].
  - intros p e. unfold createSaloon.
    destruct (falsy (saloonName p) || falsy (saloonLocation p)
              || falsy (attachmentURL p)); [reflexivity |].
    run_store. discriminate.
  - intros k p e. unfold createService. run_store.
    destruct (st !! k) as [s|]; [| reflexivity].
    destruct (strict_ne _ _); [reflexivity |]. simpl. discriminate.
  - intros k v e. unfold rateSaloon.
    destruct (lt v _ || gt v _); [reflexivity |]. run_store.
    destruct (st !! k) as [s|]; [| reflexivity]. simpl. discriminate.
  - intros k p e. unfold updateSaloonById. run_store.
    destruct (st !! k) as [s|]; [| reflexivity]. simpl. discriminate.
Qed.

Lemma errors_leave_the_store_witness :
  (createService env2 id0 service0 store0).1
    = Err "You are not the owner of this saloon"
  /\ (createService env2 id0 service0 store0).2 = store0.
Proof.
  destruct (errors_leave_the_store env2 store0) as (_ & Hservice & _).
  split; [reflexivity |].
  exact (Hservice id0 service0 _ eq_refl).
Defined.

(** ** What a call can change *)

Lemma exec_frame
  (ic : Env) (c : Call) (st : Store) (k : string) :
  keyed st ->
  touched ic c ≠ Some k ->
  exec ic c st !! k = st !! k.
Proof.
  intros Hst Hk.
  destruct (exec_shape ic c st Hst)
    as [-> | [(id & -> & ->) | [(p & -> & _ & ->) | [(id & p & s & -> & _ & _ & ->)
       | [(id & v & s & -> & _ & ->) | (id & p & s & -> & _ & ->)]]]]];
    simpl in Hk; try reflexivity.
  - apply lookup_delete_ne. congruence.
  - apply lookup_insert_ne. congruence.
  - apply lookup_insert_ne. congruence.
  - apply lookup_insert_ne. congruence.
  - apply lookup_insert_ne. congruence.
Qed.

(** X5. In a store keyed by record id, [createService], [deleteSaloon],
    [rateSaloon] and [updateSaloonById] called on an id change nothing
    under any other key, and [createSaloon] changes nothing under any key
    but the generated id. *)
Theorem calls_touch_one_key (ic : Env) (st : Store) (k k' : string) :
  keyed st ->
  k' ≠ k ->
  (forall p, (createService ic k p st).2 !! k' = st !! k')
  /\ (deleteSaloon ic k st).2 !! k' = st !! k'
  /\ (forall v, (rateSaloon ic k v st).2 !! k' = st !! k')
  /\ (forall p, (updateSaloonById ic k p st).2 !! k' = st !! k')
  /\ (forall p, k' ≠ uuidv4 ic -> (createSaloon ic p st).2 !! k' = st !! k').
Proof.
  intros Hst Hne.
  assert (Hk : Some k ≠ Some k') by congruence.
  split; [| split; [| split; [| split]]].
  - intros p. exact (exec_frame ic (CreateService k p) st k' Hst Hk).
  - exact (exec_frame ic (DeleteSaloon k) st k' Hst Hk).
  - intros v. exact (exec_frame ic (RateSaloon k v) st k' Hst Hk).
  - intros p. exact (exec_frame ic (UpdateSaloonById k p) st k' Hst Hk).
  - intros p Hfresh. apply (exec_frame ic (CreateSaloon p) st k' Hst).
    simpl. congruence.
Qed.

Lemma calls_touch_one_key_witness :
  (deleteSaloon env2 "no-such-id" store3).2 !! id0 = store3 !! id0
  /\ (createSaloon env2 payload1 store3).2 !! id0 = store3 !! id0.
Proof.
  destruct (calls_touch_one_key env2 store3 "no-such-id" id0)
    as (_ & Hdelete & _ & _ & Hcreate).
  - apply reachable_keyed. repeat apply reachable_call.
    apply reachable_empty.
  - discriminate.
  - split; [exact Hdelete | apply Hcreate; discriminate].
Defined.

(** X6. In a store keyed by record id, the only call that puts a record
    under a key that had none is [createSaloon], under the generated id
    and with the record it builds; and the only call after which a key
    has lost its record is [deleteSaloon] of that key. *)
Theorem records_come_and_go
  (ic : Env) (c : Call) (st : Store) (k : string) :
  keyed st ->
  (st !! k = None -> forall s, exec ic c st !! k = Some s ->
     exists p, c = CreateSaloon p /\ k = uuidv4 ic /\ s = saloon_of ic p)
  /\ (forall s, st !! k = Some s -> exec ic c st !! k = None ->
        c = DeleteSaloon k).
Proof.
  intros Hst.
  destruct (exec_shape ic c st Hst)
    as [-> | [(id & -> & ->) | [(p & -> & _ & ->) | [(id & p & s0 & -> & Hs0 & _ & ->)
       | [(id & v & s0 & -> & Hs0 & ->) | (id & p & s0 & -> & Hs0 & ->)]]]]];
    split.
  - congruence.
  - congruence.
  - intros Hnone s Hs. apply lookup_delete_Some in Hs as [_ Hs]. congruence.
  - intros s Hs Hgone. apply lookup_delete_None in Hgone as [-> | Hgone];
      [reflexivity | congruence].
  - intros Hnone s Hs. apply lookup_insert_Some in Hs as [[<- <-] | [_ Hs]];
      [| congruence].
    now exists p.
  - intros s Hs Hgone. apply lookup_insert_None in Hgone as [Hgone _].
    congruence.
  - intros Hnone s Hs. apply lookup_insert_Some in Hs as [[<- _] | [_ Hs]];
      congruence.
  - intros s Hs Hgone. apply lookup_insert_None in Hgone as [Hgone _].
    congruence.
  - intros Hnone s Hs. apply lookup_insert_Some in Hs as [[<- _] | [_ Hs]];
      congruence.
  - intros s Hs Hgone. apply lookup_insert_None in Hgone as [Hgone _].
    congruence.
  - intros Hnone s Hs. apply lookup_insert_Some in Hs as [[<- _] | [_ Hs]];
      congruence.
  - intros s Hs Hgone. apply lookup_insert_None in Hgone as [Hgone _].
    congruence.
Qed.

Lemma records_come_and_go_witness :
  (store0 !! uuidv4 env1 = None
   /\ exec env1 (CreateSaloon payload1) store0 !! uuidv4 env1
      = Some (saloon_of env1 payload1)
   /\ exists p, CreateSaloon payload1 = CreateSaloon p
        /\ uuidv4 env1 = uuidv4 env1
        /\ saloon_of env1 payload1 = saloon_of env1 p)
  /\ (store0 !! id0 = Some saloon0
      /\ exec env2 (DeleteSaloon id0) store0 !! id0 = None
      /\ DeleteSaloon id0 = DeleteSaloon id0).
Proof.
  destruct (records_come_and_go env1 (CreateSaloon payload1) store0
              (uuidv4 env1) keyed_store0) as [Hadd _].
  destruct (records_come_and_go env2 (DeleteSaloon id0) store0 id0
              keyed_store0) as [_ Hdel].
  split.
  - split; [reflexivity | split; [reflexivity |]].
    apply Hadd; reflexivity.
  - split; [exact store0_lookup | split; [reflexivity |]].
    exact (Hdel saloon0 store0_lookup eq_refl).
Defined.

(** X7. In a store keyed by record id, and with a generated id that is
    not a key of it, a record that is there before and after a call keeps
    its owner, id and [createdAt]; the services it had stay, in order, at
    the front of the services it has; and its services differ only when
    the caller is the owner. *)
Theorem records_keep_identity
  (ic : Env) (c : Call) (st : Store) (k : string) (s s' : Saloon.t) :
  keyed st ->
  st !! uuidv4 ic = None ->
  st !! k = Some s ->
  exec ic c st !! k = Some s' ->
  Saloon.owner s' = Saloon.owner s
  /\ Saloon.id s' = Saloon.id s
  /\ Saloon.createdAt s' = Saloon.createdAt s
  /\ Saloon.servicesRendered s `prefix_of` Saloon.servicesRendered s'
  /\ (Saloon.servicesRendered s' ≠ Saloon.servicesRendered s ->
      caller ic = Saloon.owner s).
Proof.
  intros Hst Hfresh Hs Hs'.
  assert (Hsame : s' = s ->
    Saloon.owner s' = Saloon.owner s
    /\ Saloon.id s' = Saloon.id s
    /\ Saloon.createdAt s' = Saloon.createdAt s
    /\ Saloon.servicesRendered s `prefix_of` Saloon.servicesRendered s'
    /\ (Saloon.servicesRendered s' ≠ Saloon.servicesRendered s ->
        caller ic = Saloon.owner s)).
  { intros ->. repeat split; try reflexivity. intros []. reflexivity. }
  destruct (exec_shape ic c st Hst)
    as [E | [(id & -> & E) | [(p & -> & _ & E) | [(id & p & s0 & -> & Hs0 & Hown & E)
       | [(id & v & s0 & -> & Hs0 & E) | (id & p & s0 & -> & Hs0 & E)]]]]];
    rewrite E in Hs'; clear E.
  - apply Hsame. congruence.
  - apply lookup_delete_Some in Hs' as [_ Hs']. apply Hsame. congruence.
  - apply lookup_insert_Some in Hs' as [[<- _] | [_ Hs']];
      [congruence | apply Hsame; congruence].
  - apply lookup_insert_Some in Hs' as [[<- <-] | [_ Hs']];
      [| apply Hsame; congruence].
    assert (s0 = s) as -> by congruence. simpl.
    repeat split; try reflexivity.
    + now apply prefix_app_r.
    + intros _. now symmetry.
  - apply lookup_insert_Some in Hs' as [[<- <-] | [_ Hs']];
      [| apply Hsame; congruence].
    assert (s0 = s) as -> by congruence. simpl.
    repeat split; try reflexivity. intros []. reflexivity.
  - apply lookup_insert_Some in Hs' as [[<- <-] | [_ Hs']];
      [| apply Hsame; congruence].
    assert (s0 = s) as -> by congruence. simpl.
    repeat split; try reflexivity. intros []. reflexivity.
Qed.

Lemma records_keep_identity_witness :
  exists s', exec env1 (CreateService id0 service0) store0 !! id0 = Some s'
    /\ Saloon.owner s' = Saloon.owner saloon0
    /\ Saloon.id s' = Saloon.id saloon0
    /\ Saloon.createdAt s' = Saloon.createdAt saloon0
    /\ Saloon.servicesRendered saloon0 `prefix_of` Saloon.servicesRendered s'
    /\ (Saloon.servicesRendered s' ≠ Saloon.servicesRendered saloon0 ->
        caller env1 = Saloon.owner saloon0).
Proof.
  eexists. split.
  - unfold store0. simpl. unfold createService. run_store.
    rewrite lookup_singleton_eq. simpl. apply lookup_insert_eq.
  - refine (records_keep_identity env1 (CreateService id0 service0) store0
              id0 saloon0 _ keyed_store0 _ store0_lookup _).
    + unfold store0. apply lookup_singleton_ne. discriminate.
    + unfold store0. simpl. unfold createService. run_store.
      rewrite lookup_singleton_eq. simpl. apply lookup_insert_eq.
Defined.

(** ** Reading back what was written *)

(** X8. In a store keyed by record id, the record that [createSaloon],
    [createService], [rateSaloon] or [updateSaloonById] returns in [Ok] is
    the one that [getSaloonById] then returns for its id, when that id is
    not empty. *)
Theorem written_record_is_read_back (ic : Env) (st : Store) (s : Saloon.t) :
  keyed st ->
  Saloon.id s ≠ "" ->
  (forall p, (createSaloon ic p st).1 = Ok s ->
     (getSaloonById (Saloon.id s) (createSaloon ic p st).2).1 = Ok s)
  /\ (forall k p, (createService ic k p st).1 = Ok s ->
        (getSaloonById (Saloon.id s) (createService ic k p st).2).1 = Ok s)
  /\ (forall k v, (rateSaloon ic k v st).1 = Ok s ->
        (getSaloonById (Saloon.id s) (rateSaloon ic k v st).2).1 = Ok s)
  /\ (forall k p, (updateSaloonById ic k p st).1 = Ok s ->
        (getSaloonById (Saloon.id s) (updateSaloonById ic k p st).2).1
          = Ok s).
Proof.
  intros Hst Hid.
  assert (Hget : forall st' : Store, st' !! Saloon.id s = Some s ->
            (getSaloonById (Saloon.id s) st').1 = Ok s).
  { intros st' Hs. unfold getSaloonById.
    apply falsy_nonempty in Hid. rewrite Hid. run_store. now rewrite Hs. }
  split; [| split; [| split]].
  - intros p. unfold createSaloon.
    destruct (falsy (saloonName p) || falsy (saloonLocation p)
              || falsy (attachmentURL p)); [discriminate |].
    run_store. intros [= <-]. apply Hget. apply lookup_insert_eq.
  - intros k p. unfold createService. run_store.
    destruct (st !! k) as [s0|]; [| discriminate].
    destruct (strict_ne _ _); [discriminate |]. simpl.
    intros [= <-]. apply Hget. apply lookup_insert_eq.
  - intros k v. unfold rateSaloon.
    destruct (lt v _ || gt v _); [discriminate |]. run_store.
    destruct (st !! k) as [s0|]; [| discriminate]. simpl.
    intros [= <-]. apply Hget. apply lookup_insert_eq.
  - intros k p. unfold updateSaloonById. run_store.
    destruct (st !! k) as [s0|]; [| discriminate]. simpl.
    intros [= <-]. apply Hget. apply lookup_insert_eq.
Qed.

Lemma written_record_is_read_back_witness :
  (createSaloon env1 payload1 store0).1 = Ok (saloon_of env1 payload1)
  /\ (getSaloonById (uuidv4 env1) (createSaloon env1 payload1 store0).2).1
     = Ok (saloon_of env1 payload1).
Proof.
  destruct (written_record_is_read_back env1 store0 (saloon_of env1 payload1)
              keyed_store0 ltac:(discriminate)) as [Hcreate _].
  split; [reflexivity |].
  exact (Hcreate payload1 eq_refl).
Defined.

(** X9. In a store keyed by record id, the saloons that [getAllSaloons]
    lists have pairwise distinct ids, and each of them is the record
    stored under its id. *)
Theorem getAllSaloons_distinct_ids (st : Store) (l : list Saloon.t) :
  keyed st ->
  (getAllSaloons st).1 = Ok l ->
  NoDup (Saloon.id <$> l)
  /\ forall s, s ∈ l -> st !! Saloon.id s = Some s.
Proof.
  intros Hst. unfold getAllSaloons. run_store.
  destruct (Nat.eqb _ _); [discriminate |]. intros [= <-].
  assert (Hids : Saloon.id <$> (map_to_list st).*2 = (map_to_list st).*1).
  { rewrite <- list_fmap_compose. apply list_fmap_ext.
    intros i [k s] Hin. simpl.
    apply list_elem_of_lookup_2, elem_of_map_to_list in Hin.
    now apply Hst. }
  split.
  - rewrite Hids. apply NoDup_fst_map_to_list.
  - intros s [[k s'] [-> Hin]]%list_elem_of_fmap. simpl.
    apply elem_of_map_to_list in Hin. now rewrite (Hst k s' Hin).
Qed.

Lemma getAllSaloons_distinct_ids_witness :
  exists l, (getAllSaloons store3).1 = Ok l
    /\ NoDup (Saloon.id <$> l)
    /\ forall s, s ∈ l -> store3 !! Saloon.id s = Some s.
Proof.
  eexists. split; [reflexivity |].
  apply (getAllSaloons_distinct_ids store3).
  - apply reachable_keyed. repeat apply reachable_call.
    apply reachable_empty.
  - reflexivity.
Defined.

(** ** Service ids under a fresh id generator *)

Lemma ids_within_mono (used used' : gset string) (st : Store) :
  used ⊆ used' -> ids_within used st -> ids_within used' st.
Proof.
  intros Hsub Hin k s Hs. destruct (Hin k s Hs) as [Hk Hids].
  split; [now apply Hsub | intros i Hi; now apply Hsub, Hids].
Qed.

Lemma ids_within_insert (used : gset string) (st : Store) (k : string)
  (s : Saloon.t) :
  k ∈ used -> (forall i, i ∈ service_ids s -> i ∈ used) ->
  ids_within used st -> ids_within used (<[k := s]> st).
Proof.
  intros Hk Hids Hin k' s' Hs'.
  apply lookup_insert_Some in Hs' as [[<- <-] | [_ Hs']];
    [now split | now apply Hin].
Qed.

Lemma fresh_reachable_invariant (used : gset string) (st : Store) :
  fresh_reachable used st ->
  keyed st /\ ids_within used st
  /\ forall k s, st !! k = Some s -> NoDup (service_ids s).
Proof.
  induction 1 as [|used ic c st _ (Hst & Hin & Hnodup) Hfresh].
  { split; [exact keyed_empty | split]; intros k s Hs;
      now rewrite lookup_empty in Hs. }
  split; [now apply exec_keyed |].
  pose proof (ids_within_mono used ({[uuidv4 ic]} ∪ used) st
                ltac:(set_solver) Hin) as Hin'.
  destruct (exec_shape ic c st Hst)
    as [-> | [(id & -> & ->) | [(p & -> & _ & ->) | [(id & p & s0 & -> & Hs0 & _ & ->)
       | [(id & v & s0 & -> & Hs0 & ->) | (id & p & s0 & -> & Hs0 & ->)]]]]].
  - now split.
  - split.
    + intros k s Hs. apply lookup_delete_Some in Hs as [_ Hs].
      now apply Hin'.
    + intros k s Hs. apply lookup_delete_Some in Hs as [_ Hs].
      now apply (Hnodup k).
  - split.
    + apply ids_within_insert; [set_solver | | exact Hin'].
      intros i Hi. now apply elem_of_nil in Hi.
    + intros k s Hs. apply lookup_insert_Some in Hs as [[_ <-] | [_ Hs]];
        [apply NoDup_nil_2 | now apply (Hnodup k)].
  - destruct (Hin id s0 Hs0) as [Hid Hids].
    assert (Hnew : service_ids
                     (with_servicesRendered
                        (Saloon.servicesRendered s0 ++ [service_of ic p])%list
                        s0)
                   = (service_ids s0 ++ [uuidv4 ic])%list).
    { unfold service_ids. simpl. now rewrite fmap_app. }
    split.
    + apply ids_within_insert; [set_solver | | exact Hin'].
      intros i. rewrite Hnew, elem_of_app, list_elem_of_singleton.
      intros [Hi | ->];
        [now apply elem_of_union_r, Hids | apply elem_of_union_l; set_solver].
    + intros k s Hs. apply lookup_insert_Some in Hs as [[_ <-] | [_ Hs]];
        [| now apply (Hnodup k)].
      rewrite Hnew. apply NoDup_app. split; [exact (Hnodup id s0 Hs0) |].
      split; [| apply NoDup_singleton].
      intros i Hi ->%list_elem_of_singleton. apply Hfresh. now apply Hids.
  - destruct (Hin' id s0 Hs0) as [Hid Hids]. split.
    + now apply ids_within_insert.
    + intros k s Hs. apply lookup_insert_Some in Hs as [[_ <-] | [_ Hs]];
        [exact (Hnodup id s0 Hs0) | now apply (Hnodup k)].
  - destruct (Hin' id s0 Hs0) as [Hid Hids]. split.
    + now apply ids_within_insert.
    + intros k s Hs. apply lookup_insert_Some in Hs as [[_ <-] | [_ Hs]];
        [exact (Hnodup id s0 Hs0) | now apply (Hnodup k)].
Qed.

(** X10. When [uuidv4()] never answers the same id twice, in every store
    that calls build from the empty one the services of each saloon have
    pairwise distinct ids, and every saloon id and service id is one that
    the generator answered. *)
Theorem service_ids_distinct
  (used : gset string) (st : Store) (k : string) (s : Saloon.t) :
  fresh_reachable used st ->
  st !! k = Some s ->
  NoDup (service_ids s)
  /\ k ∈ used
  /\ forall i, i ∈ service_ids s -> i ∈ used.
Proof.
  intros Hrun Hs.
  destruct (fresh_reachable_invariant used st Hrun) as (_ & Hin & Hnodup).
  split; [now apply (Hnodup k) | now apply Hin].
Qed.

Lemma store3_fresh_reachable :
  fresh_reachable
    ({[uuidv4 env2]} ∪ ({[uuidv4 env1]} ∪ ({[uuidv4 env0]} ∪ ∅))) store3.
Proof.
  unfold store3. repeat apply fresh_reachable_call;
    try apply fresh_reachable_empty; vm_compute; intros [=].
Qed.

Lemma service_ids_distinct_witness :
  exists s, store3 !! id0 = Some s
    /\ NoDup (service_ids s)
    /\ id0 ∈ ({[uuidv4 env2]} ∪ ({[uuidv4 env1]} ∪ ({[uuidv4 env0]} ∪ ∅))
              : gset string)
    /\ forall i, i ∈ service_ids s ->
         i ∈ ({[uuidv4 env2]} ∪ ({[uuidv4 env1]} ∪ ({[uuidv4 env0]} ∪ ∅))
              : gset string).
Proof.
  eexists. split; [reflexivity |].
  exact (service_ids_distinct _ store3 id0 _ store3_fresh_reachable eq_refl).
Defined.

(** ** Calls in sequence *)

(** X11. A saloon created under an id that was not a key of the store and
    then deleted by its creator is returned by the delete, and the store
    is the one before the two calls. *)
Theorem createSaloon_then_deleteSaloon
  (ic ic' : Env) (st : Store) (p : SaloonPayload) (s : Saloon.t) :
  st !! uuidv4 ic = None ->
  (createSaloon ic p st).1 = Ok s ->
  caller ic' = caller ic ->
  deleteSaloon ic' (Saloon.id s) (createSaloon ic p st).2 = (Ok s, st).
Proof.
  intros Hfresh Hok Hsame. revert Hok. unfold createSaloon.
  destruct (falsy (saloonName p) || falsy (saloonLocation p)
            || falsy (attachmentURL p)); [discriminate |].
  run_store. intros [= <-]. simpl.
  unfold deleteSaloon. run_store. rewrite lookup_insert_eq. simpl.
  rewrite strict_ne_same by (symmetry; exact Hsame). simpl.
  rewrite delete_delete_eq, delete_insert_eq.
  now rewrite (delete_id st _ Hfresh).
Qed.

Lemma createSaloon_then_deleteSaloon_witness :
  deleteSaloon env0 (uuidv4 env1) (createSaloon env1 payload1 store0).2
    = (Ok (saloon_of env1 payload1), store0).
Proof.
  apply (createSaloon_then_deleteSaloon env1 env0 store0 payload1
           (saloon_of env1 payload1)); reflexivity.
Defined.




(** X13. In a store keyed by record id, [createService], [rateSaloon] and
    [updateSaloonById] keep the number of saloons; [deleteSaloon] of a
    stored id takes one away, whoever calls; and a successful
    [createSaloon] under an id that was not a key adds one. *)
Theorem number_of_saloons (ic : Env) (st : Store) (k : string) :
  keyed st ->
  (forall p, size (createService ic k p st).2 = size st)
  /\ (forall v, size (rateSaloon ic k v st).2 = size st)
  /\ (forall p, size (updateSaloonById ic k p st).2 = size st)
  /\ (is_Some (st !! k) -> S (size (deleteSaloon ic k st).2) = size st)
  /\ (forall p s, st !! uuidv4 ic = None ->
        (createSaloon ic p st).1 = Ok s ->
        size (createSaloon ic p st).2 = S (size st)).
Proof.
  intros Hst.
  assert (Hkeep : forall c, touched ic c = Some k ->
            (forall p, c ≠ CreateSaloon p) -> c ≠ DeleteSaloon k ->
            size (exec ic c st) = size st).
  { intros c Hk Hcreate Hdelete.
    destruct (exec_shape ic c st Hst)
      as [-> | [(id & -> & E) | [(p & -> & _ & E)
         | [(id & p & s0 & -> & Hs0 & _ & ->)
         | [(id & v & s0 & -> & Hs0 & ->) | (id & p & s0 & -> & Hs0 & ->)]]]]];
      try reflexivity; try (apply map_size_insert_Some; eauto).
    - simpl in Hk. congruence.
    - now destruct (Hcreate p). }
  split; [| split; [| split; [| split]]].
  - intros p. apply (Hkeep (CreateService k p)); [reflexivity | |];
      discriminate.
  - intros v. apply (Hkeep (RateSaloon k v)); [reflexivity | |];
      discriminate.
  - intros p. apply (Hkeep (UpdateSaloonById k p)); [reflexivity | |];
      discriminate.
  - intros Hsome.
    assert ((deleteSaloon ic k st).2 = delete k st) as ->.
    { unfold deleteSaloon. run_store.
      destruct (st !! k) as [s|]; [| reflexivity].
      destruct (strict_ne _ _); simpl; [reflexivity | apply delete_delete_eq]. }
    rewrite (map_size_delete_Some k st Hsome).
    destruct (size st) eqn:Hsize; [| reflexivity].
    apply map_size_empty_iff in Hsize. subst st.
    destruct Hsome as [s Hs]. now rewrite lookup_empty in Hs.
  - intros p s Hfresh. unfold createSaloon.
    destruct (falsy (saloonName p) || falsy (saloonLocation p)
              || falsy (attachmentURL p)); [discriminate |].
    run_store. intros _. now apply map_size_insert_None.
Qed.

Lemma number_of_saloons_witness :
  size (rateSaloon env2 id0 5%float store3).2 = size store3
  /\ S (size (deleteSaloon env2 id0 store3).2) = size store3
  /\ size (createSaloon env1 payload1 store0).2 = S (size store0).
Proof.
  destruct (number_of_saloons env2 store3 id0) as (_ & Hrate & _ & Hdelete & _).
  { apply reachable_keyed. repeat apply reachable_call.
    apply reachable_empty. }
  destruct (number_of_saloons env1 store0 id0 keyed_store0)
    as (_ & _ & _ & _ & Hcreate).
  split; [apply Hrate | split].
  - apply Hdelete. eexists. reflexivity.
  - apply (Hcreate payload1 (saloon_of env1 payload1)); reflexivity.
Defined.

(** X14. After a [deleteSaloon] of an id, whatever it returned, the calls
    that take this id are refused and leave the store as it is:
    [createService], [updateSaloonById] and a second [deleteSaloon] with
    their not-found errors, [rateSaloon] with one of its errors; and
    [getSaloonById] returns an error. *)
Theorem deleted_id_is_gone (ic ic' : Env) (st : Store) (k : string) :
  let st' := (deleteSaloon ic k st).2 in
  (forall p, createService ic' k p st'
     = (Err "Unable to carry out the following function", st'))
  /\ (forall p, updateSaloonById ic' k p st'
        = (Err ("couldn't update the saloon with this id=" +:+ k
                +:+ ". saloon not found"), st'))
  /\ deleteSaloon ic' k st'
     = (Err ("couldn't delete saloon with this id=" +:+ k
             +:+ ". saloon not found."), st')
  /\ (forall v, exists e, rateSaloon ic' k v st' = (Err e, st'))
  /\ exists e, getSaloonById k st' = (Err e, st').
Proof.
  intros st'.
  assert (Hgone : st' !! k = None).
  { subst st'. unfold deleteSaloon. run_store.
    destruct (st !! k) as [s|]; [| apply lookup_delete_eq].
    destruct (strict_ne _ _); simpl; [apply lookup_delete_eq |].
    rewrite delete_delete_eq. apply lookup_delete_eq. }
  clearbody st'. split; [| split; [| split; [| split]]].
  - intros p. unfold createService. run_store. now rewrite Hgone.
  - intros p. unfold updateSaloonById. run_store. now rewrite Hgone.
  - unfold deleteSaloon. run_store. rewrite Hgone.
    now rewrite (delete_id st' k Hgone).
  - intros v. unfold rateSaloon.
    destruct (lt v _ || gt v _); [eexists; reflexivity |].
    run_store. rewrite Hgone. eexists. reflexivity.
  - unfold getSaloonById. destruct (falsy k); [eexists; reflexivity |].
    run_store. rewrite Hgone. eexists. reflexivity.
Qed.

(** ** What holds of a saloon that was never rated or updated *)

Lemma as_created_saloon_of (ic : Env) (p : SaloonPayload) :
  falsy (saloonName p) || falsy (saloonLocation p)
  || falsy (attachmentURL p) = false ->
  as_created (saloon_of ic p).
Proof.
  intros Hvalid. apply orb_false_iff in Hvalid as [Hvalid H3].
  apply orb_false_iff in Hvalid as [H1 H2].
  apply falsy_nonempty in H1, H2, H3. now repeat split.
Qed.

(** X15. In every store that calls build from the empty one, a saloon
    whose [updatedAt] is absent has the initial rating 1.0 and the three
    text fields not empty: only [rateSaloon] and [updateSaloonById] change
    the rating or the text, and both set [updatedAt]. *)
Theorem never_updated_is_as_created
  (st : Store) (k : string) (s : Saloon.t) :
  reachable st ->
  st !! k = Some s ->
  Saloon.updatedAt s = None ->
  as_created s.
Proof.
  intros Hrun. revert k s.
  induction Hrun as [|ic c st Hrun IH]; intros k s Hs Hnone.
  { now rewrite lookup_empty in Hs. }
  pose proof (reachable_keyed st Hrun) as Hst.
  destruct (exec_shape ic c st Hst)
    as [E | [(id & -> & E) | [(p & -> & Hvalid & E)
       | [(id & p & s0 & -> & Hs0 & _ & E)
       | [(id & v & s0 & -> & Hs0 & E) | (id & p & s0 & -> & Hs0 & E)]]]]];
    rewrite E in Hs; clear E.
  - now apply (IH k).
  - apply lookup_delete_Some in Hs as [_ Hs]. now apply (IH k).
  - apply lookup_insert_Some in Hs as [[_ <-] | [_ Hs]];
      [now apply as_created_saloon_of | now apply (IH k)].
  - apply lookup_insert_Some in Hs as [[_ <-] | [_ Hs]];
      [| now apply (IH k)].
    exact (IH id s0 Hs0 Hnone).
  - apply lookup_insert_Some in Hs as [[_ <-] | [_ Hs]];
      [discriminate | now apply (IH k)].
  - apply lookup_insert_Some in Hs as [[_ <-] | [_ Hs]];
      [discriminate | now apply (IH k)].
Qed.

Lemma never_updated_is_as_created_witness :
  exists s, exec env1 (CreateService id0 service0)
              (exec env0 (CreateSaloon payload0) ∅) !! id0 = Some s
    /\ Saloon.updatedAt s = None
    /\ as_created s.
Proof.
  eexists. split; [reflexivity | split; [reflexivity |]].
  apply (never_updated_is_as_created
           (exec env1 (CreateService id0 service0)
              (exec env0 (CreateSaloon payload0) ∅)) id0);
    [| reflexivity | reflexivity].
  repeat apply reachable_call. apply reachable_empty.
Defined.

(** ** A NaN rating stays *)

Lemma add_nan_l (x : float) : (nan + x)%float = nan.
Proof.
  apply Prim2SF_inj. rewrite add_spec.
  change (Prim2SF nan) with S754_nan. reflexivity.
Qed.

(** X16. Once the rating of a saloon is NaN, every [rateSaloon] that
    succeeds on it returns and stores rating NaN again, whatever the rate
    given. *)
Theorem nan_rating_stays
  (ic : Env) (st : Store) (k : string) (v : number) (s s' : Saloon.t) :
  st !! k = Some s ->
  Saloon.rating s = nan ->
  (rateSaloon ic k v st).1 = Ok s' ->
  Saloon.rating s' = nan
  /\ (rateSaloon ic k v st).2 !! Saloon.id s = Some s'.
Proof.
  intros Hs Hnan. unfold rateSaloon.
  destruct (lt v _ || gt v _); [discriminate |]. run_store. rewrite Hs.
  simpl. intros [= <-]. simpl. rewrite Hnan, add_nan_l.
  split; [reflexivity | apply lookup_insert_eq].
Qed.

Lemma nan_rating_stays_witness :
  let st := (rateSaloon env2 id0 nan store0).2 in
  exists s', (rateSaloon env1 id0 5%float st).1 = Ok s'
    /\ Saloon.rating s' = nan
    /\ (rateSaloon env1 id0 5%float st).2 !! id0 = Some s'.
Proof.
  eexists. split; [reflexivity |].
  apply (nan_rating_stays env1 (rateSaloon env2 id0 nan store0).2 id0
           5%float (with_updatedAt (Some 3000%N) (with_rating nan saloon0)));
    reflexivity.
Defined.
